(** * list-matlab-package-functions.py: a shallow embedding

    The script walks an XML reference list, resolves every reference
    entry to a (possibly fully qualified) name and prints the sorted
    names as an Octave [case {...}] fragment.  This file embeds the pure
    part of the script (everything after the download) and proves the
    properties of the walker, the resolver and the formatter.

    Modelling choices:
    - a Python [str] is a [string]; its characters are the code points
      0..255, which covers the ASCII names and lower-case URLs the
      script is written for;
    - Python integers are [Z]; slice and [find] indices follow the
      interpreter's clamping rules;
    - [element.attrib] is a [gmap string string];
    - an exception is a value of [exception]; code that may raise
      returns a [result];
    - [print] appends to an explicit standard-output string;
    - assertions are enabled (the script is not run with [-O]) and the
      interpreter's recursion limit is not modelled. *)

From Stdlib Require Import ZArith Ascii String.
From stdpp Require Import gmap strings list sorting.

Local Open Scope Z_scope.

(** ** Python primitives used by the script *)

Module Py.

Inductive exception := AssertionError | KeyError.

Inductive result (A : Type) : Type :=
| Ok (x : A)
| Raise (e : exception).
Global Arguments Ok {A} x.
Global Arguments Raise {A} e.

(** Sequencing: the first exception raised propagates. *)
Global Instance result_ret : MRet result := λ A x, Ok x.
Global Instance result_bind : MBind result := λ A B k r,
  match r with
  | Ok x => k x
  | Raise e => Raise e
  end.

(** [assert b] *)
Definition assert (b : bool) : result unit :=
  if b then Ok tt else Raise AssertionError.

Definition len (s : string) : Z := Z.of_nat (String.length s).

(** Index normalisation of slices (PySlice_AdjustIndices, step 1):
    a negative index counts from the end, and the result is clamped
    to [0, len]. *)
Definition adjust_index (length i : Z) : Z :=
  if i <? 0 then Z.max 0 (i + length) else Z.min i length.

(** [s[start:stop]]; [None] is an omitted bound. *)
Definition slice (s : string) (start stop : option Z) : string :=
  let lo := from_option (adjust_index (len s)) 0 start in
  let hi := from_option (adjust_index (len s)) (len s) stop in
  String.substring (Z.to_nat lo) (Z.to_nat (hi - lo)) s.

(** [s.startswith(prefix)] *)
Definition startswith (s pre : string) : bool := String.prefix pre s.

(** [s.endswith(suffix)]: the suffix is compared at offset
    [len(s) - len(suffix)]. *)
Definition endswith (s suf : string) : bool :=
  let n := String.length s in
  let m := String.length suf in
  (m <=? n)%nat && bool_decide (String.substring (n - m) m s = suf).

(** Index normalisation of [find] (ADJUST_INDICES): the end is clamped
    to [0, len], the start only from below. *)
Definition find_start (length i : Z) : Z :=
  if i <? 0 then Z.max 0 (i + length) else i.

(** [s.find(sub, start, stop)]: the lowest index at which [sub] occurs
    within [s[start:stop]], or [-1]. *)
Definition find (s sub : string) (start stop : option Z) : Z :=
  let lo := from_option (find_start (len s)) 0 start in
  let hi := from_option (adjust_index (len s)) (len s) stop in
  if hi - lo <? len sub then -1
  else
    match String.index (Z.to_nat lo) sub
                       (String.substring 0 (Z.to_nat hi) s) with
    | Some i => Z.of_nat i
    | None => -1
    end.

(** [c in s] for a one-character needle *)
Fixpoint contains (c : ascii) (s : string) : bool :=
  match s with
  | EmptyString => false
  | String a s' => bool_decide (a = c) || contains c s'
  end.

(** ASCII case folding, [str.lower] on ASCII text *)
Definition isascii_char (c : ascii) : bool := (N_of_ascii c <? 128)%N.

Definition lower_char (c : ascii) : ascii :=
  let n := N_of_ascii c in
  if ((65 <=? n) && (n <=? 90))%N then ascii_of_N (n + 32) else c.

Fixpoint isascii (s : string) : bool :=
  match s with
  | EmptyString => true
  | String a s' => isascii_char a && isascii s'
  end.

Fixpoint lower (s : string) : string :=
  match s with
  | EmptyString => EmptyString
  | String a s' => String (lower_char a) (lower s')
  end.

End Py.

Import Py.

(** ** The script *)

(** [_PRINT_FQCN = True] *)
Definition _PRINT_FQCN : bool := true.

Definition has_dot_in_target_basename (target : string) : result bool :=
  assert (startswith target "ref/"
          && bool_decide (find target "/" (Some 4) None = -1)
          && endswith target ".html");;
  Ok (bool_decide (find target "." (Some 4) (Some (-5)) > -1)).

Definition parse_fq_class_name (target name : string) : string :=
  let fqcn_lc := slice target (Some 4) (Some (-5)) in
  slice fqcn_lc None (Some (- len name)) +:+ name.

(** An [xml.etree.ElementTree.Element]: a qualified tag, the attribute
    dictionary and the children in document order. *)
Local Unset Elimination Schemes.
Inductive Element : Type :=
  mkElement (tag : string) (attrib : gmap string string)
            (children : list Element).
Local Set Elimination Schemes.

Definition tag (element : Element) : string :=
  match element with mkElement t _ _ => t end.
Definition attrib (element : Element) : gmap string string :=
  match element with mkElement _ a _ => a end.
Definition children (element : Element) : list Element :=
  match element with mkElement _ _ cs => cs end.

Definition ref_tag : string := "{https://www.mathworks.com/help/ref/data}ref".

(** [d[key]] *)
Definition getitem (d : gmap string string) (key : string) : result string :=
  match d !! key with
  | Some v => Ok v
  | None => Raise KeyError
  end.

(** [key in d] *)
Definition has_key (d : gmap string string) (key : string) : bool :=
  bool_decide (is_Some (d !! key)).

(** The body of [if element.tag == ...:], on the list [functions] it
    appends to. *)
Definition visit_ref (print_fqcn : bool) (element : Element)
    (functions : list string) : result (list string) :=
  assert (bool_decide (attrib element ≠ ∅)
          && has_key (attrib element) "name"
          && has_key (attrib element) "target");;
  name ← getitem (attrib element) "name";
  if print_fqcn then
    target ← getitem (attrib element) "target";
    dotted ← has_dot_in_target_basename target;
    if (dotted : bool)
    then Ok (functions ++ [parse_fq_class_name target name])
    else Ok (functions ++ [name])
  else Ok (functions ++ [name]).

(** [deep_search_for_functions], with the module-level flag as a
    parameter. *)
Fixpoint deep_search_for_functions_with (print_fqcn : bool)
    (element : Element) : result (list string) :=
  let functions := [] in
  functions ←
    (if bool_decide (tag element = ref_tag)
     then visit_ref print_fqcn element functions
     else Ok functions);
  (fix loop (cs : list Element) (functions : list string) :=
     match cs with
     | [] => Ok functions
     | child :: cs' =>
         more ← deep_search_for_functions_with print_fqcn child;
         loop cs' (functions ++ more)
     end) (children element) functions.

Definition deep_search_for_functions : Element → result (list string) :=
  deep_search_for_functions_with _PRINT_FQCN.

(** [sorted(functions)]: the builtin sorts with a stable merge sort on
    the code-point order of strings. *)
Definition sorted (functions : list string) : list string :=
  merge_sort String.le functions.

Definition newline : string := String "010" EmptyString.
Definition dquote : string := String "034" EmptyString.

(** [print(text, end=terminator)] on the standard output [out] *)
Definition print (text terminator : string) (out : string) : string :=
  out +:+ text +:+ terminator.

(** ['"%s"' % function] *)
Definition quoted (function : string) : string :=
  dquote +:+ function +:+ dquote.

(** One iteration of the loop of [print_for_octave], on the pair of
    [cur_pos] and the standard output. *)
Definition print_for_octave_step (st : Z * string) (function : string)
  : Z * string :=
  let '(cur_pos, out) := st in
  let chars_to_print := len function + 7 in
  let '(cur_pos, out) :=
    if bool_decide (cur_pos + chars_to_print > 79)
    then (10, print "          " EmptyString (print "..." newline out))
    else (cur_pos, out) in
  let out := print (quoted function) ", " out in
  (cur_pos + (len function + 4), out).

(** [print_for_octave], returning what it writes to standard output. *)
Definition print_for_octave (functions : list string) : string :=
  let cur_pos := 0 in
  let out := print "    case {" EmptyString EmptyString in
  let cur_pos := 10 in
  let '(_, out) :=
    foldl print_for_octave_step (cur_pos, out) (sorted functions) in
  print "}" newline out.

(** ** Facts about strings *)

Module StrFacts.

Lemma app_nil_l (s : string) : EmptyString +:+ s = s.
Proof. reflexivity. Qed.

Lemma app_cons (a : ascii) (s t : string) :
  String a s +:+ t = String a (s +:+ t).
Proof. reflexivity. Qed.

Lemma app_nil_r (s : string) : s +:+ EmptyString = s.
Proof. induction s as [|a s IH]; [done|]. by rewrite app_cons, IH. Qed.

Lemma app_assoc (s t u : string) : (s +:+ t) +:+ u = s +:+ t +:+ u.
Proof. induction s as [|a s IH]; [done|]. by rewrite !app_cons, IH. Qed.

Lemma length_app (s t : string) :
  String.length (s +:+ t) = (String.length s + String.length t)%nat.
Proof.
  induction s as [|a s IH]; [done|]. rewrite app_cons. simpl. by rewrite IH.
Qed.

Lemma substring_0_0 (s : string) : String.substring 0 0 s = EmptyString.
Proof. by destruct s. Qed.

Lemma substring_full (s : string) :
  String.substring 0 (String.length s) s = s.
Proof. induction s as [|a s IH]; [done|]. simpl. by rewrite IH. Qed.

Lemma substring_app_l (s t : string) :
  String.substring 0 (String.length s) (s +:+ t) = s.
Proof.
  induction s as [|a s IH]; [apply substring_0_0|].
  rewrite app_cons. simpl. by rewrite IH.
Qed.

Lemma substring_app_skip (s t : string) (n m : nat) :
  String.substring (String.length s + n) m (s +:+ t) = String.substring n m t.
Proof.
  induction s as [|a s IH]; [done|]. rewrite app_cons. simpl. apply IH.
Qed.

Lemma substring_split (s : string) (n : nat) :
  (n ≤ String.length s)%nat →
  s = String.substring 0 n s +:+ String.substring n (String.length s - n) s.
Proof.
  revert n. induction s as [|a s IH]; intros [|n] Hn; simpl in *; try lia.
  - done.
  - rewrite app_nil_l. by rewrite substring_full.
  - rewrite app_cons. f_equal. apply IH. lia.
Qed.

Lemma substring_ge (s : string) (n : nat) :
  (String.length s ≤ n)%nat → String.substring 0 n s = s.
Proof.
  revert n.
  induction s as [|a s IH]; intros [|n] Hn; simpl in *; try done; try lia.
  f_equal. apply IH. lia.
Qed.

Lemma prefix_app (s t : string) : String.prefix s (s +:+ t) = true.
Proof.
  induction s as [|a s IH]; [by destruct t|].
  rewrite app_cons. simpl. by destruct (ascii_dec a a).
Qed.

Lemma prefix_inv (s t : string) :
  String.prefix s t = true → ∃ r, t = s +:+ r.
Proof.
  revert t. induction s as [|a s IH]; intros t H.
  - by exists t.
  - destruct t as [|b t]; [done|]. simpl in H.
    destruct (ascii_dec a b) as [->|]; [|done].
    destruct (IH _ H) as [r ->]. by exists r.
Qed.

(** [String.index] past a known prefix *)
Lemma index_app_skip (s t sub : string) (n : nat) :
  String.index (String.length s + n) sub (s +:+ t)
  = (λ i, (String.length s + i)%nat) <$> String.index n sub t.
Proof.
  induction s as [|a s IH].
  - rewrite app_nil_l. simpl. by destruct (String.index n sub t).
  - rewrite app_cons. simpl. rewrite IH.
    by destruct (String.index n sub t).
Qed.

(** Searching for one character *)
Lemma index_char (c : ascii) (s : string) :
  is_Some (String.index 0 (String c EmptyString) s) ↔ contains c s = true.
Proof.
  induction s as [|a s IH]; simpl.
  - split; [by intros [? ?]|done].
  - destruct (ascii_dec c a) as [->|Hne].
    + rewrite bool_decide_eq_true_2 by done.
      destruct s; simpl; split; eauto.
    + rewrite bool_decide_eq_false_2 by done. simpl.
      rewrite <- IH.
      destruct (String.index 0 (String c EmptyString) s); split; eauto.
      all: by intros [? ?].
Qed.

Lemma contains_app (c : ascii) (s t : string) :
  contains c (s +:+ t) = contains c s || contains c t.
Proof.
  induction s as [|a s IH]; [done|].
  rewrite app_cons. simpl. rewrite IH. by rewrite orb_assoc.
Qed.

Lemma len_app (s t : string) : len (s +:+ t) = len s + len t.
Proof. unfold len. rewrite length_app. lia. Qed.

Lemma len_nonneg (s : string) : 0 ≤ len s.
Proof. unfold len. lia. Qed.

Lemma length_lower (s : string) : String.length (lower s) = String.length s.
Proof. induction s as [|a s IH]; simpl; congruence. Qed.

End StrFacts.

(** ** The resolver *)

Section resolver.
Import StrFacts.

(** [find] for a one-character needle, when the search window is
    exactly the middle part of the string. *)
Lemma find_char_window (pre body post : string) (c : ascii)
    (start stop : option Z) :
  let s := pre +:+ body +:+ post in
  from_option (find_start (len s)) 0 start = len pre →
  from_option (adjust_index (len s)) (len s) stop = len pre + len body →
  find s (String c EmptyString) start stop
  = match String.index 0 (String c EmptyString) body with
    | Some i => len pre + Z.of_nat i
    | None => -1
    end.
Proof.
  intros s Hlo Hhi. unfold find. fold s. rewrite Hlo, Hhi.
  replace (len pre + len body - len pre) with (len body) by lia.
  change (len (String c EmptyString)) with 1.
  destruct (Z.ltb_spec (len body) 1) as [Hb|Hb].
  { destruct body; [done|]. unfold len in Hb. simpl in Hb. lia. }
  replace (Z.to_nat (len pre + len body))
    with (String.length (pre +:+ body))
    by (rewrite length_app; unfold len; lia).
  subst s. rewrite <- app_assoc, substring_app_l.
  replace (Z.to_nat (len pre)) with (String.length pre + 0)%nat
    by (unfold len; lia).
  rewrite index_app_skip.
  destruct (String.index 0 (String c EmptyString) body); simpl; [|done].
  unfold len. lia.
Qed.

Lemma find_char_window_found (pre body post : string) (c : ascii)
    (start stop : option Z) :
  let s := pre +:+ body +:+ post in
  from_option (find_start (len s)) 0 start = len pre →
  from_option (adjust_index (len s)) (len s) stop = len pre + len body →
  bool_decide (find s (String c EmptyString) start stop > -1)
  = contains c body.
Proof.
  intros s Hlo Hhi. subst s. rewrite find_char_window by done.
  pose proof (index_char c body) as Hc.
  destruct (String.index 0 (String c EmptyString) body) as [i|].
  - rewrite bool_decide_eq_true_2 by (pose proof (len_nonneg pre); lia).
    symmetry. apply Hc. eauto.
  - rewrite bool_decide_eq_false_2 by lia.
    destruct (contains c body); [|done].
    destruct Hc as [_ Hc]. by destruct (Hc eq_refl).
Qed.

Lemma find_char_window_absent (pre body post : string) (c : ascii)
    (start stop : option Z) :
  let s := pre +:+ body +:+ post in
  from_option (find_start (len s)) 0 start = len pre →
  from_option (adjust_index (len s)) (len s) stop = len pre + len body →
  bool_decide (find s (String c EmptyString) start stop = -1)
  = negb (contains c body).
Proof.
  intros s Hlo Hhi. subst s. rewrite find_char_window by done.
  pose proof (index_char c body) as Hc.
  destruct (String.index 0 (String c EmptyString) body) as [i|].
  - rewrite bool_decide_eq_false_2 by (pose proof (len_nonneg pre); lia).
    destruct Hc as [Hc _]. by rewrite Hc by eauto.
  - rewrite bool_decide_eq_true_2 by lia.
    destruct (contains c body); [|done].
    destruct Hc as [_ Hc]. by destruct (Hc eq_refl).
Qed.

Lemma endswith_app (s suf : string) : endswith (s +:+ suf) suf = true.
Proof.
  unfold endswith. rewrite length_app.
  apply andb_true_intro. split; [apply Nat.leb_le; lia|].
  apply bool_decide_eq_true_2.
  replace (String.length s + String.length suf - String.length suf)%nat
    with (String.length s + 0)%nat by lia.
  rewrite substring_app_skip. apply substring_full.
Qed.

Lemma endswith_inv (s suf : string) :
  endswith s suf = true → ∃ r, s = r +:+ suf.
Proof.
  unfold endswith. intros [Hle Heq%bool_decide_eq_true_1]%andb_prop.
  apply Nat.leb_le in Hle.
  set (n := (String.length s - String.length suf)%nat) in *.
  exists (String.substring 0 n s).
  replace (String.length suf) with (String.length s - n)%nat in Heq by lia.
  rewrite <- Heq. apply substring_split. lia.
Qed.

(** The shape [ref/<basename>.html] of a target, with no path
    separator in the basename. *)
Definition target_shape (target : string) : Prop :=
  ∃ basename, target = "ref/" +:+ basename +:+ ".html"
              ∧ contains "/" basename = false.

(** On a target built from a basename, the assertion checks the
    basename for a [/] and the result says whether it has a dot. *)
Lemma has_dot_on_basename (basename : string) :
  has_dot_in_target_basename ("ref/" +:+ basename +:+ ".html")
  = if contains "/" basename then Raise AssertionError
    else Ok (contains "." basename).
Proof.
  unfold has_dot_in_target_basename.
  set (target := "ref/" +:+ basename +:+ ".html").
  assert (Hlen : len target = 4 + len basename + 5).
  { unfold target. rewrite !len_app.
    change (len "ref/") with 4. change (len ".html") with 5. lia. }
  pose proof (len_nonneg basename) as Hb.
  assert (Hs : startswith target "ref/" = true) by apply prefix_app.
  assert (He : endswith target ".html" = true).
  { unfold target. rewrite <- app_assoc. apply endswith_app. }
  assert (Hslash : bool_decide (find target "/" (Some 4) None = -1)
                   = negb (contains "/" basename)).
  { unfold target.
    replace (basename +:+ ".html")
      with ((basename +:+ ".html") +:+ EmptyString) by apply app_nil_r.
    rewrite find_char_window_absent.
    - rewrite contains_app. simpl. by rewrite orb_false_r.
    - done.
    - simpl. rewrite !len_app. change (len EmptyString) with 0.
      change (len "ref/") with 4. lia. }
  assert (Hdot : bool_decide (find target "." (Some 4) (Some (-5)) > -1)
                 = contains "." basename).
  { unfold target. apply find_char_window_found; [done|].
    fold target. simpl. unfold adjust_index. simpl.
    rewrite Hlen. change (len "ref/") with 4. lia. }
  rewrite Hs, Hslash, He, Hdot.
  by destruct (contains "/" basename).
Qed.

(** [ref/] and [.html] cannot overlap: a target that starts with the
    one and ends with the other has a basename between them. *)
Lemma endswith_html_after_ref (rest : string) :
  endswith ("ref/" +:+ rest) ".html" = true → endswith rest ".html" = true.
Proof.
  destruct rest as [|c1 [|c2 [|c3 [|c4 [|c5 rest]]]]].
  1-5: intros [_ H%bool_decide_eq_true_1]%andb_prop; by vm_compute in H.
  set (r := String c1 (String c2 (String c3 (String c4 (String c5 rest))))).
  assert (5 ≤ String.length r)%nat as Hr by (simpl; lia).
  clearbody r. unfold endswith. rewrite length_app.
  change (String.length "ref/") with 4%nat.
  change (String.length ".html") with 5%nat.
  intros [_ H]%andb_prop.
  apply andb_true_intro. split; [by apply Nat.leb_le|].
  replace (4 + String.length r - 5)%nat
    with (String.length "ref/" + (String.length r - 5))%nat in H
    by (change (String.length "ref/") with 4%nat; lia).
  by rewrite substring_app_skip in H.
Qed.

(** The assertion of [has_dot_in_target_basename] holds exactly on the
    targets of the shape. *)
Lemma has_dot_Ok_shape (target : string) (r : bool) :
  has_dot_in_target_basename target = Ok r → target_shape target.
Proof.
  intros H.
  assert (startswith target "ref/" = true ∧ endswith target ".html" = true)
    as [Hs He].
  { unfold has_dot_in_target_basename in H.
    destruct (startswith target "ref/"); [|done].
    destruct (endswith target ".html"); [done|].
    by rewrite andb_false_r in H. }
  apply prefix_inv in Hs as [rest ->].
  apply endswith_html_after_ref, endswith_inv in He as [basename ->].
  exists basename. split; [done|].
  rewrite has_dot_on_basename in H.
  by destruct (contains "/" basename).
Qed.

Lemma has_dot_no_KeyError (target : string) :
  has_dot_in_target_basename target ≠ Raise KeyError.
Proof.
  unfold has_dot_in_target_basename.
  by destruct (_ && _ && _).
Qed.

Lemma has_dot_off_shape (target : string) :
  ¬ target_shape target →
  has_dot_in_target_basename target = Raise AssertionError.
Proof.
  intros Hn.
  destruct (has_dot_in_target_basename target) as [r|[]] eqn:H.
  - destruct Hn. by eapply has_dot_Ok_shape.
  - done.
  - by destruct (has_dot_no_KeyError target).
Qed.

Lemma has_dot_on_shape (target : string) :
  target_shape target →
  ∃ r, has_dot_in_target_basename target = Ok r.
Proof.
  intros (basename & -> & Hb). rewrite has_dot_on_basename, Hb. eauto.
Qed.

(** [s[:-n]] for a positive [n] drops the last [n] characters. *)
Lemma slice_drop_suffix (p u : string) :
  u ≠ EmptyString →
  slice (p +:+ u) None (Some (- len u)) = p.
Proof.
  intros Hu. unfold slice. simpl. unfold adjust_index.
  assert (0 < len u) by (destruct u; [done|unfold len; simpl; lia]).
  destruct (Z.ltb_spec (- len u) 0); [|lia].
  rewrite len_app. pose proof (len_nonneg p).
  replace (Z.to_nat (Z.max 0 (- len u + (len p + len u)) - 0))
    with (String.length p) by (unfold len in *; lia).
  apply substring_app_l.
Qed.

(** [s[:-0]] is [s[:0]], the empty string. *)
Lemma slice_drop_nothing (s : string) :
  slice s None (Some (- len EmptyString)) = EmptyString.
Proof.
  unfold slice. simpl. unfold adjust_index. simpl.
  rewrite Z.min_l by apply len_nonneg. apply substring_0_0.
Qed.

(** The qualified lower-case string of a target *)
Lemma slice_basename (basename : string) :
  slice ("ref/" +:+ basename +:+ ".html") (Some 4) (Some (-5)) = basename.
Proof.
  unfold slice, from_option, adjust_index.
  change (4 <? 0) with false. change (-5 <? 0) with true. cbv beta iota.
  rewrite !len_app. change (len "ref/") with 4. change (len ".html") with 5.
  pose proof (len_nonneg basename).
  rewrite Z.min_l by lia. rewrite Z.max_r by lia.
  replace (Z.to_nat 4) with (String.length "ref/" + 0)%nat by done.
  rewrite substring_app_skip.
  replace (Z.to_nat (-5 + (4 + (len basename + 5)) - 4))
    with (String.length basename) by (unfold len in *; lia).
  apply substring_app_l.
Qed.

End resolver.

(** ** The tree walker *)

Section walker.

Lemma Element_ind (P : Element → Prop) :
  (∀ t a cs, Forall P cs → P (mkElement t a cs)) → ∀ element, P element.
Proof.
  intros H. fix IH 1. intros [t a cs]. apply H.
  induction cs as [|c cs IHcs]; constructor; [apply IH|apply IHcs].
Qed.

(** The nodes of a tree in document order: a node, then the subtrees
    of its children from first to last. *)
Fixpoint preorder (element : Element) : list Element :=
  element ::
    (fix go (cs : list Element) : list Element :=
       match cs with
       | [] => []
       | child :: cs' => preorder child ++ go cs'
       end) (children element).

Definition is_ref (element : Element) : bool :=
  bool_decide (tag element = ref_tag).

(** The reference entries of a tree, in document order *)
Definition entries (element : Element) : list Element :=
  filter (λ e, is_ref e = true) (preorder element).

(** The name a reference entry resolves to: both attributes are
    required; with the flag set the target is classified by
    [has_dot_in_target_basename] and a dotted one is resolved by
    [parse_fq_class_name]; otherwise the name is used as it is. *)
Definition resolved_name (print_fqcn : bool) (element : Element)
  : result string :=
  match attrib element !! "name", attrib element !! "target" with
  | Some name, Some target =>
      if print_fqcn then
        dotted ← has_dot_in_target_basename target;
        Ok (if (dotted : bool) then parse_fq_class_name target name
            else name)
      else Ok name
  | _, _ => Raise AssertionError
  end.

(** The loop over the children, as a function of its own *)
Definition walk_children (print_fqcn : bool)
  : list Element → list string → result (list string) :=
  fix loop (cs : list Element) (functions : list string) :=
    match cs with
    | [] => Ok functions
    | child :: cs' =>
        more ← deep_search_for_functions_with print_fqcn child;
        loop cs' (functions ++ more)
    end.

Lemma deep_search_unfold (print_fqcn : bool) (element : Element) :
  deep_search_for_functions_with print_fqcn element
  = functions ← (if is_ref element
                 then visit_ref print_fqcn element []
                 else Ok []);
    walk_children print_fqcn (children element) functions.
Proof. destruct element. reflexivity. Qed.

Lemma preorder_unfold (element : Element) :
  preorder element = element :: concat (preorder <$> children element).
Proof.
  destruct element as [t a cs]. simpl. f_equal.
  induction cs as [|c cs IH]; [done|]. simpl. by rewrite IH.
Qed.

(** What the body appends is the resolved name. *)
Lemma visit_ref_resolved (print_fqcn : bool) (element : Element)
    (functions : list string) :
  visit_ref print_fqcn element functions
  = name ← resolved_name print_fqcn element; Ok (functions ++ [name]).
Proof.
  unfold visit_ref, resolved_name, has_key, getitem.
  destruct (attrib element !! "name") as [name|] eqn:Hn.
  - assert (attrib element ≠ ∅) as Hne.
    { intros He. by rewrite He, lookup_empty in Hn. }
    rewrite (bool_decide_eq_true_2 _ Hne).
    destruct (attrib element !! "target") as [target|] eqn:Ht.
    + rewrite !bool_decide_eq_true_2 by eauto. simpl.
      destruct print_fqcn; [|done].
      by destruct (has_dot_in_target_basename target) as [[]|].
    + rewrite (bool_decide_eq_false_2 (is_Some None)) by by intros [? ?].
      by rewrite andb_false_r.
  - rewrite (bool_decide_eq_false_2 (is_Some None)) by by intros [? ?].
    by rewrite andb_false_r.
Qed.

Lemma mapM_result_app {A B} (f : A → result B) (l1 l2 : list A) :
  mapM f (l1 ++ l2) = r1 ← mapM f l1; r2 ← mapM f l2; Ok (r1 ++ r2).
Proof.
  induction l1 as [|x l1 IH]; simpl.
  - by destruct (mapM f l2).
  - destruct (f x) as [y|]; simpl; [|done]. rewrite IH.
    destruct (mapM f l1); simpl; [|done].
    by destruct (mapM f l2).
Qed.

(** The walker returns the resolved names of the reference entries
    of the tree, in document order. *)
Lemma deep_search_entries (print_fqcn : bool) (element : Element) :
  deep_search_for_functions_with print_fqcn element
  = mapM (resolved_name print_fqcn) (entries element).
Proof.
  induction element as [t a cs IH] using Element_ind.
  rewrite deep_search_unfold. unfold entries. rewrite preorder_unfold.
  simpl children.
  assert (Hloop : ∀ functions,
    walk_children print_fqcn cs functions
    = more ← mapM (resolved_name print_fqcn)
               (filter (λ e, is_ref e = true) (concat (preorder <$> cs)));
      Ok (functions ++ more)).
  { induction IH as [|c cs Hc _ IHcs]; intros functions; simpl.
    - by rewrite app_nil_r.
    - rewrite Hc. unfold entries. rewrite filter_app, mapM_result_app.
      destruct (mapM _ (filter _ (preorder c))) as [r1|]; simpl; [|done].
      rewrite IHcs.
      destruct (mapM _ (filter _ (concat _))) as [r2|]; simpl; [|done].
      by rewrite app_assoc. }
  rewrite filter_cons.
  destruct (is_ref (mkElement t a cs)) eqn:Href.
  - rewrite decide_True by done. rewrite visit_ref_resolved. simpl.
    destruct (resolved_name print_fqcn (mkElement t a cs)); simpl; [|done].
    rewrite Hloop. by destruct (mapM _ _).
  - rewrite decide_False by done. simpl. rewrite Hloop.
    by destruct (mapM _ _).
Qed.

Lemma resolved_name_no_KeyError (print_fqcn : bool) (element : Element) :
  resolved_name print_fqcn element ≠ Raise KeyError.
Proof.
  unfold resolved_name.
  destruct (attrib element !! "name") as [name|]; [|done].
  destruct (attrib element !! "target") as [target|]; [|done].
  destruct print_fqcn; [|done].
  pose proof (has_dot_no_KeyError target) as Hk.
  by destruct (has_dot_in_target_basename target) as [?|[]].
Qed.

(** One failing element makes the whole traversal fail, and the
    only exception there is to propagate is the assertion's. *)
Lemma mapM_AssertionError {A B} (f : A → result B) (l : list A) (x : A) :
  (∀ y, f y ≠ Raise KeyError) →
  x ∈ l → f x = Raise AssertionError →
  mapM f l = Raise AssertionError.
Proof.
  intros Hk Hin Hx. induction Hin as [x l|x y l Hin IH]; simpl.
  - by rewrite Hx.
  - specialize (Hk y). destruct (f y) as [?|[]]; simpl; [|done..].
    by rewrite IH.
Qed.

Lemma mapM_all_Ok {A B} (f : A → result B) (g : A → B) (l : list A) :
  Forall (λ x, f x = Ok (g x)) l → mapM f l = Ok (g <$> l).
Proof.
  induction 1 as [|x l Hx _ IH]; simpl; [done|]. by rewrite Hx, IH.
Qed.

Lemma mapM_Ok_length {A B} (f : A → result B) (l : list A) (r : list B) :
  mapM f l = Ok r → length r = length l.
Proof.
  revert r. induction l as [|x l IH]; intros r; simpl.
  - by intros [= <-].
  - destruct (f x); simpl; [|done].
    destruct (mapM f l) as [r'|]; simpl; [|done].
    intros [= <-]. simpl. f_equal. by apply IH.
Qed.

(** The entries of a child are entries of the parent, whether or not
    the parent is one itself. *)
Lemma entries_child (element child e : Element) :
  child ∈ children element → e ∈ entries child → e ∈ entries element.
Proof.
  unfold entries. rewrite !list_elem_of_filter, (preorder_unfold element).
  intros Hc [He Hin]. split; [done|].
  apply list_elem_of_further. clear He.
  induction Hc as [child cs|child c cs _ IH]; simpl;
    apply elem_of_app; auto.
Qed.

End walker.

(** From the downloaded tree to the text written: [main] after
    [fetch_reference_list]. *)
Definition run (xml_element : Element) : result string :=
  functions ← deep_search_for_functions xml_element;
  Ok (print_for_octave functions).

(** A leaf reference entry with exactly the two attributes *)
Definition ref_entry (name target : string) : Element :=
  mkElement ref_tag {[ "name" := name; "target" := target ]} [].

(** ** The formatter *)

Section formatter.
Import StrFacts.

(** The layout rule, as a function of the running column and the
    names still to print: a name that would pass column 79 with its
    quotes, separator and ellipsis goes to a fresh line, after an
    ellipsis on the current one and behind ten spaces; every name is
    followed by the separator and moves the column by its length
    plus four. *)
Fixpoint layout (col : Z) (names : list string) : string :=
  match names with
  | [] => EmptyString
  | name :: rest =>
      if bool_decide (col + (len name + 7) > 79)
      then "..." +:+ newline +:+ "          " +:+ quoted name +:+ ", "
           +:+ layout (10 + (len name + 4)) rest
      else quoted name +:+ ", " +:+ layout (col + (len name + 4)) rest
  end.

(** The column after writing [text] from column [col] *)
Fixpoint column_after (col : Z) (text : string) : Z :=
  match text with
  | EmptyString => col
  | String c rest =>
      if bool_decide (c = "010"%char) then column_after 0 rest
      else column_after (col + 1) rest
  end.

(** Code-point lexicographic order, the order of [<=] on [str] *)
Inductive lex_le : string → string → Prop :=
| lex_le_empty t : lex_le EmptyString t
| lex_le_head a b s t :
    (N_of_ascii a < N_of_ascii b)%N → lex_le (String a s) (String b t)
| lex_le_tail a s t : lex_le s t → lex_le (String a s) (String a t).

Lemma print_unfold (text terminator out : string) :
  print text terminator out = out +:+ text +:+ terminator.
Proof. done. Qed.

Lemma loop_layout (names : list string) (col : Z) (out : string) :
  (foldl print_for_octave_step (col, out) names).2
  = out +:+ layout col names.
Proof.
  revert col out. induction names as [|name rest IH]; intros col out; simpl.
  - by rewrite app_nil_r.
  - case_bool_decide; rewrite IH, !print_unfold;
      by rewrite ?app_assoc, ?app_nil_r, ?app_nil_l.
Qed.

Lemma print_for_octave_layout (functions : list string) :
  print_for_octave functions
  = "    case {" +:+ layout 10 (sorted functions) +:+ "}" +:+ newline.
Proof.
  unfold print_for_octave.
  pose proof (loop_layout (sorted functions) 10
                (print "    case {" EmptyString EmptyString)) as H.
  destruct (foldl _ _ _) as [col out]. simpl in H. subst out.
  rewrite !print_unfold.
  by rewrite ?app_assoc, ?app_nil_r, ?app_nil_l.
Qed.

Lemma layout_snoc (names : list string) (name : string) (col : Z) :
  ∃ pre, layout col (names ++ [name]) = pre +:+ quoted name +:+ ", ".
Proof.
  revert col. induction names as [|n rest IH]; intros col; simpl.
  - case_bool_decide.
    + exists ("..." +:+ newline +:+ "          ").
      by rewrite ?app_assoc, ?app_nil_r.
    + exists EmptyString. by rewrite ?app_nil_r, ?app_nil_l.
  - case_bool_decide.
    + destruct (IH (10 + (len n + 4))) as [pre ->].
      exists ("..." +:+ newline +:+ "          " +:+ quoted n +:+ ", "
              +:+ pre).
      by rewrite ?app_assoc.
    + destruct (IH (col + (len n + 4))) as [pre ->].
      exists (quoted n +:+ ", " +:+ pre). by rewrite ?app_assoc.
Qed.

Lemma column_after_app (s t : string) (col : Z) :
  column_after col (s +:+ t) = column_after (column_after col s) t.
Proof.
  revert col. induction s as [|c s IH]; intros col; [done|].
  rewrite app_cons. simpl. by case_bool_decide.
Qed.

Lemma column_after_line (s : string) (col : Z) :
  contains "010" s = false → column_after col s = col + len s.
Proof.
  revert col. induction s as [|c s IH]; intros col; simpl.
  - unfold len. simpl. lia.
  - intros [Hc Hs]%orb_false_elim. rewrite Hc, (IH _ Hs).
    unfold len. simpl. lia.
Qed.

(** [cur_pos] is the column of the standard output, as long as no
    name holds a line break. *)
Lemma cur_pos_is_column (names : list string) (col : Z) (out : string) :
  Forall (λ name, contains "010" name = false) names →
  column_after 0 out = col →
  let st := foldl print_for_octave_step (col, out) names in
  column_after 0 st.2 = st.1.
Proof.
  intros Hnames. revert col out.
  induction Hnames as [|name rest Hn _ IH]; intros col out Hcol; [done|].
  assert (Hq : ∀ c, column_after c (quoted name +:+ ", ")
                   = c + (len name + 4)).
  { intros c. rewrite column_after_line.
    - unfold quoted. rewrite !len_app.
      change (len dquote) with 1. change (len ", ") with 2. lia.
    - unfold quoted. rewrite !contains_app, Hn. done. }
  simpl. case_bool_decide; apply IH; rewrite !print_unfold.
  - rewrite app_nil_r, column_after_app, Hq. f_equal.
    by rewrite !column_after_app.
  - rewrite column_after_app, Hcol. apply Hq.
Qed.

Lemma sorted_Sorted (functions : list string) :
  Sorted String.le (sorted functions).
Proof. apply Sorted_merge_sort, _. Qed.

Lemma sorted_Permutation (functions : list string) :
  sorted functions ≡ₚ functions.
Proof. apply merge_sort_Permutation. Qed.

(** The result does not depend on the sorting algorithm: the order is
    total and antisymmetric, so a list has one sorted arrangement. *)
Lemma sorted_unique (functions l : list string) :
  Sorted String.le l → l ≡ₚ functions → l = sorted functions.
Proof.
  intros Hl Hp. apply (Sorted_unique String.le); [done|apply sorted_Sorted|].
  by rewrite sorted_Permutation.
Qed.

Lemma String_le_lex (s t : string) : String.le s t ↔ lex_le s t.
Proof.
  unfold String.le, String.leb. revert t.
  induction s as [|a s IH]; intros [|b t]; simpl.
  - split; [constructor|done].
  - split; [constructor|done].
  - split; [done|inversion 1].
  - unfold Ascii.compare.
    destruct (N.compare_spec (N_of_ascii a) (N_of_ascii b)) as [He|Hl|Hg].
    + assert (a = b) as ->.
      { by rewrite <- (ascii_N_embedding a), <- (ascii_N_embedding b), He. }
      rewrite IH. split; [by constructor|].
      inversion 1; subst; [lia|done].
    + split; [by constructor|done].
    + split; [done|]. inversion 1; subst; lia.
Qed.

End formatter.

(** ** Properties of the resolver *)

Section resolver_properties.
Import StrFacts.

Lemma len_lower (s : string) : len (lower s) = len s.
Proof. unfold len. by rewrite length_lower. Qed.

(** For a name of at least one character the resolver is the suffix
    substitution. *)
Lemma parse_fq_class_name_nonempty (p name : string) :
  name ≠ EmptyString →
  parse_fq_class_name ("ref/" +:+ (p +:+ lower name) +:+ ".html") name
  = p +:+ name.
Proof.
  intros Hn. unfold parse_fq_class_name. rewrite slice_basename.
  rewrite <- len_lower, slice_drop_suffix; [done|].
  by destruct name.
Qed.

(** With an empty name the slice [fqcn_lc[:-0]] is [fqcn_lc[:0]]: the
    whole qualified string is dropped. *)
Lemma parse_fq_class_name_empty (q : string) :
  parse_fq_class_name ("ref/" +:+ q +:+ ".html") EmptyString = EmptyString.
Proof.
  unfold parse_fq_class_name. rewrite slice_basename.
  by rewrite slice_drop_nothing.
Qed.

(** The three ways a target can miss the shape *)
Lemma target_shape_no_slash (basename : string) :
  contains "/" basename = true →
  ¬ target_shape ("ref/" +:+ basename +:+ ".html").
Proof.
  intros Hb [r Hr]%has_dot_on_shape.
  by rewrite has_dot_on_basename, Hb in Hr.
Qed.

Lemma target_shape_startswith (target : string) :
  startswith target "ref/" = false → ¬ target_shape target.
Proof.
  intros Hs (basename & -> & _).
  unfold startswith in Hs. by rewrite prefix_app in Hs.
Qed.

Lemma target_shape_endswith (target : string) :
  endswith target ".html" = false → ¬ target_shape target.
Proof.
  intros He (basename & -> & _).
  by rewrite <- app_assoc, endswith_app in He.
Qed.

End resolver_properties.

(** C1. For an ASCII name [n] and a lower-case string [q] that ends
    with the lower-cased name, the resolver applied to the target
    [ref/<q>.html] and [n] returns [q[:-len(n)] + n]; when the name has
    at least one character that is [q] with its last [len(n)]
    characters, the lower-cased name, replaced by the name as
    written. *)
Theorem parse_fq_class_name_suffix (n q : string) :
  isascii n = true →
  lower q = q →
  endswith q (lower n) = true →
  parse_fq_class_name ("ref/" +:+ q +:+ ".html") n
  = slice q None (Some (- len n)) +:+ n
  ∧ (n ≠ EmptyString →
     ∃ p, q = p +:+ lower n
          ∧ slice q None (Some (- len n)) = p
          ∧ parse_fq_class_name ("ref/" +:+ q +:+ ".html") n = p +:+ n).
Proof.
  intros _ _ Hq. split.
  - unfold parse_fq_class_name. by rewrite slice_basename.
  - intros Hn. apply endswith_inv in Hq as [p ->]. exists p.
    split; [done|]. split.
    + rewrite <- len_lower. apply slice_drop_suffix. by destruct n.
    + by apply parse_fq_class_name_nonempty.
Qed.

Lemma parse_fq_class_name_suffix_witness :
  parse_fq_class_name ("ref/" +:+ "myclass.bar" +:+ ".html") "Bar"
  = slice "myclass.bar" None (Some (- len "Bar")) +:+ "Bar"
  ∧ ("Bar" ≠ EmptyString →
     ∃ p, "myclass.bar" = p +:+ lower "Bar"
          ∧ slice "myclass.bar" None (Some (- len "Bar")) = p
          ∧ parse_fq_class_name ("ref/" +:+ "myclass.bar" +:+ ".html") "Bar"
            = p +:+ "Bar").
Proof.
  apply (parse_fq_class_name_suffix "Bar" "myclass.bar"); reflexivity.
Defined.

(** C2. For a basename without [/], the predicate applied to
    [ref/<basename>.html] passes its assertion and returns whether the
    basename holds a dot. *)
Theorem has_dot_in_target_basename_dot (basename : string) :
  contains "/" basename = false →
  has_dot_in_target_basename ("ref/" +:+ basename +:+ ".html")
  = Ok (contains "." basename).
Proof. intros Hb. by rewrite has_dot_on_basename, Hb. Qed.

Lemma has_dot_in_target_basename_dot_witness :
  contains "/" "myclass.bar" = false
  ∧ has_dot_in_target_basename ("ref/" +:+ "myclass.bar" +:+ ".html")
    = Ok (contains "." "myclass.bar").
Proof.
  split; [reflexivity|].
  apply (has_dot_in_target_basename_dot "myclass.bar"). reflexivity.
Defined.

(** ** Properties of the tree walker *)

(** What the scenario of the two entries prints *)
Definition scenario_output : string :=
  "    case {" +:+ dquote +:+ "foo" +:+ dquote +:+ ", "
  +:+ dquote +:+ "myclass.Bar" +:+ dquote +:+ ", }" +:+ newline.

Definition scenario_tree : Element :=
  mkElement "reflist" ∅
    [ref_entry "foo" "ref/foo.html"; ref_entry "Bar" "ref/myclass.bar.html"].

(** C3. A tree whose reference entries are, in document order, the
    entry [foo] with target [ref/foo.html] and the entry [Bar] with
    target [ref/myclass.bar.html] resolves to the list [foo],
    [myclass.Bar], and the formatter writes the single line
    [    case {"foo", "myclass.Bar", }]. *)
Theorem two_entries_scenario (tree e1 e2 : Element) :
  entries tree = [e1; e2] →
  attrib e1 !! "name" = Some "foo" →
  attrib e1 !! "target" = Some "ref/foo.html" →
  attrib e2 !! "name" = Some "Bar" →
  attrib e2 !! "target" = Some "ref/myclass.bar.html" →
  deep_search_for_functions tree = Ok ["foo"; "myclass.Bar"]
  ∧ print_for_octave ["foo"; "myclass.Bar"] = scenario_output
  ∧ run tree = Ok scenario_output.
Proof.
  intros He Hn1 Ht1 Hn2 Ht2.
  assert (Hd : deep_search_for_functions tree = Ok ["foo"; "myclass.Bar"]).
  { unfold deep_search_for_functions.
    rewrite deep_search_entries, He. simpl. unfold resolved_name.
    rewrite Hn1, Ht1, Hn2, Ht2. vm_compute. reflexivity. }
  assert (Hp : print_for_octave ["foo"; "myclass.Bar"] = scenario_output)
    by (vm_compute; reflexivity).
  split; [done|]. split; [done|].
  unfold run. rewrite Hd. simpl. by rewrite Hp.
Qed.

Lemma two_entries_scenario_witness :
  deep_search_for_functions scenario_tree = Ok ["foo"; "myclass.Bar"]
  ∧ print_for_octave ["foo"; "myclass.Bar"] = scenario_output
  ∧ run scenario_tree = Ok scenario_output.
Proof.
  apply (two_entries_scenario scenario_tree
           (ref_entry "foo" "ref/foo.html")
           (ref_entry "Bar" "ref/myclass.bar.html")); reflexivity.
Defined.

(** C5. With the flag set, a reference entry whose target is not of
    the shape [ref/<basename>.html] makes the walker raise
    [AssertionError], wherever the entry is in the tree; nothing is
    printed. *)
Theorem malformed_target_is_fatal (tree e : Element) (target : string) :
  e ∈ entries tree →
  attrib e !! "target" = Some target →
  ¬ target_shape target →
  deep_search_for_functions tree = Raise AssertionError
  ∧ run tree = Raise AssertionError.
Proof.
  intros Hin Ht Hshape.
  assert (Hd : deep_search_for_functions tree = Raise AssertionError).
  { unfold deep_search_for_functions. rewrite deep_search_entries.
    apply (mapM_AssertionError _ _ e);
      [apply resolved_name_no_KeyError|done|].
    unfold resolved_name. rewrite Ht.
    destruct (attrib e !! "name"); [|done].
    unfold _PRINT_FQCN. by rewrite (has_dot_off_shape _ Hshape). }
  split; [done|]. unfold run. by rewrite Hd.
Qed.

Lemma malformed_target_is_fatal_witness :
  let tree := mkElement "reflist" ∅
                [ref_entry "foo" "ref/foo.html";
                 ref_entry "bar" "ref/pkg/bar.html"] in
  deep_search_for_functions tree = Raise AssertionError
  ∧ run tree = Raise AssertionError.
Proof.
  apply (malformed_target_is_fatal _ (ref_entry "bar" "ref/pkg/bar.html")
           "ref/pkg/bar.html").
  - vm_compute. apply list_elem_of_further, list_elem_of_here.
  - reflexivity.
  - apply (target_shape_no_slash "pkg/bar"). reflexivity.
Defined.

(** A nested tree: an entry inside an entry, the same name twice, and
    an entry below a node that is none. *)
Definition nested_tree : Element :=
  mkElement "reflist" ∅
    [mkElement ref_tag {[ "name" := "a"; "target" := "ref/a.html" ]}
       [ref_entry "b" "ref/b.html"];
     mkElement "group" ∅ [ref_entry "a" "ref/a.html"]].

(** C6. The walker returns the resolved names of the reference entries
    of the tree in document order, one per entry, so names that occur
    twice are returned twice; the entries are searched in every child,
    also in those of a node that is an entry itself. *)
Theorem walker_document_order (print_fqcn : bool) (tree : Element) :
  deep_search_for_functions_with print_fqcn tree
  = mapM (resolved_name print_fqcn) (entries tree)
  ∧ (∀ names, deep_search_for_functions_with print_fqcn tree = Ok names →
              length names = length (entries tree))
  ∧ (∀ child e, child ∈ children tree → e ∈ entries child →
                e ∈ entries tree)
  ∧ deep_search_for_functions_with print_fqcn nested_tree
    = Ok ["a"; "b"; "a"].
Proof.
  split; [apply deep_search_entries|].
  split.
  { intros names. rewrite deep_search_entries. apply mapM_Ok_length. }
  split; [apply entries_child|].
  destruct print_fqcn; vm_compute; reflexivity.
Qed.

(** C9. A reference entry without a [name] or without a [target]
    attribute makes the walker raise [AssertionError], with either
    value of the flag and wherever the entry is in the tree. *)
Theorem missing_attribute_is_fatal (print_fqcn : bool)
    (tree e : Element) :
  e ∈ entries tree →
  attrib e !! "name" = None ∨ attrib e !! "target" = None →
  visit_ref print_fqcn e [] = Raise AssertionError
  ∧ deep_search_for_functions_with print_fqcn tree = Raise AssertionError.
Proof.
  intros Hin Hmiss.
  assert (Hr : resolved_name print_fqcn e = Raise AssertionError).
  { unfold resolved_name.
    destruct Hmiss as [-> | ->]; [done|].
    by destruct (attrib e !! "name"). }
  split.
  - by rewrite visit_ref_resolved, Hr.
  - rewrite deep_search_entries.
    by apply (mapM_AssertionError _ _ e);
      [apply resolved_name_no_KeyError|..].
Qed.

Lemma missing_attribute_is_fatal_witness :
  let e := mkElement ref_tag {[ "name" := "foo" ]} [] in
  let tree := mkElement "reflist" ∅ [e] in
  visit_ref true e [] = Raise AssertionError
  ∧ deep_search_for_functions_with true tree = Raise AssertionError.
Proof.
  apply (missing_attribute_is_fatal true).
  - vm_compute. apply list_elem_of_here.
  - right. reflexivity.
Defined.

(** What the walker appends for an entry when the flag is off: the
    name, once both attributes are there. *)
Definition name_if_present (element : Element) : result string :=
  match attrib element !! "name", attrib element !! "target" with
  | Some name, Some _ => Ok name
  | _, _ => Raise AssertionError
  end.

(** C10. With the flag off the walker returns the [name] attributes of
    the entries as they are; the target is only required to be there,
    and what it holds makes no difference to what is appended, so one
    that is not of the shape [ref/<basename>.html] is accepted, where
    the same tree fails with the flag set. *)
Theorem short_names_skip_shape_check (tree : Element) :
  deep_search_for_functions_with false tree
  = mapM name_if_present (entries tree)
  ∧ (∀ t a cs target target' functions,
       visit_ref false (mkElement t (<["target" := target]> a) cs) functions
       = visit_ref false (mkElement t (<["target" := target']> a) cs)
           functions)
  ∧ deep_search_for_functions_with false
      (mkElement "reflist" ∅ [ref_entry "Bar" "pkg/a.bar.htm"])
    = Ok ["Bar"]
  ∧ deep_search_for_functions_with true
      (mkElement "reflist" ∅ [ref_entry "Bar" "pkg/a.bar.htm"])
    = Raise AssertionError
  ∧ deep_search_for_functions_with false
      (mkElement "reflist" ∅ [mkElement ref_tag {[ "name" := "Bar" ]} []])
    = Raise AssertionError.
Proof.
  split; [rewrite deep_search_entries; f_equal|].
  split; [|repeat split; vm_compute; reflexivity].
  intros t a cs target target' functions.
  rewrite !visit_ref_resolved. unfold resolved_name. simpl attrib.
  assert (Hne : "target" ≠ "name") by discriminate.
  rewrite !(lookup_insert_ne _ _ _ _ Hne), !lookup_insert_eq.
  by destruct (a !! "name").
Qed.

(** ** Properties of the formatter *)

Lemma Sorted_weaken {A} (R1 R2 : relation A) (l : list A) :
  (∀ x y, R1 x y → R2 x y) → Sorted R1 l → Sorted R2 l.
Proof.
  intros HR. induction 1 as [|x l _ IH Hx]; constructor; [done|].
  destruct Hx; constructor; auto.
Qed.

(** C4. The formatter writes [    case {], which ends at column 10,
    then the sorted names by the layout rule from column 10, then the
    closing brace.  By the rule a name breaks the line exactly when
    the column plus its length plus 7 exceeds 79; the break is an
    ellipsis at the end of the line and ten spaces at the start of the
    next, which is column 10 again; each name moves the column by its
    length plus 4, the width of what is printed for it. *)
Theorem formatter_layout_rule (functions : list string) :
  print_for_octave functions
  = "    case {" +:+ layout 10 (sorted functions) +:+ "}" +:+ newline
  ∧ column_after 0 "    case {" = 10
  ∧ (∀ col name rest,
       col + (len name + 7) > 79 →
       layout col (name :: rest)
       = "..." +:+ newline +:+ "          " +:+ quoted name +:+ ", "
         +:+ layout (10 + (len name + 4)) rest)
  ∧ (∀ col name rest,
       ¬ col + (len name + 7) > 79 →
       layout col (name :: rest)
       = quoted name +:+ ", " +:+ layout (col + (len name + 4)) rest)
  ∧ (∀ col, column_after col ("..." +:+ newline +:+ "          ") = 10)
  ∧ (∀ name, len (quoted name +:+ ", ") = len name + 4)
  ∧ (Forall (λ name, contains "010" name = false) functions →
     let st := foldl print_for_octave_step
                 (10, print "    case {" EmptyString EmptyString)
                 (sorted functions) in
     column_after 0 st.2 = st.1).
Proof.
  split; [apply print_for_octave_layout|].
  split; [reflexivity|].
  split; [intros col name rest H; simpl; by rewrite bool_decide_eq_true_2|].
  split; [intros col name rest H; simpl; by rewrite bool_decide_eq_false_2|].
  split; [reflexivity|].
  split.
  { intros name. unfold quoted. rewrite !StrFacts.len_app.
    change (len dquote) with 1. change (len ", ") with 2. lia. }
  intros Hnl. apply cur_pos_is_column; [|reflexivity].
  eapply Forall_forall. intros name Hin.
  rewrite Forall_forall in Hnl. apply Hnl.
  by rewrite <- (sorted_Permutation functions).
Qed.

(** C7. The formatter prints the names in the order of [sorted]:
    the arrangement of the input that is sorted by the code-point
    lexicographic order, of which there is one (so the order of equal
    names is not at stake); upper-case ASCII letters are below
    lower-case ones, and the names zeta, Alpha, beta are printed as
    Alpha, beta, zeta. *)
Theorem sorted_lexicographic (functions : list string) :
  Sorted lex_le (sorted functions)
  ∧ sorted functions ≡ₚ functions
  ∧ (∀ l, Sorted lex_le l → l ≡ₚ functions → l = sorted functions)
  ∧ print_for_octave functions
    = "    case {" +:+ layout 10 (sorted functions) +:+ "}" +:+ newline
  ∧ (∀ a b s t,
       (65 ≤ N_of_ascii a ≤ 90)%N → (97 ≤ N_of_ascii b ≤ 122)%N →
       lex_le (String a s) (String b t) ∧ ¬ lex_le (String b t) (String a s))
  ∧ sorted ["zeta"; "Alpha"; "beta"] = ["Alpha"; "beta"; "zeta"]
  ∧ print_for_octave ["zeta"; "Alpha"; "beta"]
    = "    case {" +:+ quoted "Alpha" +:+ ", " +:+ quoted "beta" +:+ ", "
      +:+ quoted "zeta" +:+ ", " +:+ "}" +:+ newline.
Proof.
  split.
  { eapply Sorted_weaken; [|apply sorted_Sorted].
    intros x y. by rewrite String_le_lex. }
  split; [apply sorted_Permutation|].
  split.
  { intros l Hl. apply sorted_unique.
    eapply Sorted_weaken; [|exact Hl].
    intros x y. by rewrite String_le_lex. }
  split; [apply print_for_octave_layout|].
  split.
  { intros a b s t Ha Hb. split; [constructor; lia|].
    inversion 1; subst; lia. }
  split; vm_compute; reflexivity.
Qed.

Lemma layout_break (col : Z) (name : string) (rest : list string) :
  col + (len name + 7) > 79 →
  layout col (name :: rest)
  = "..." +:+ newline +:+ "          " +:+ quoted name +:+ ", "
    +:+ layout (10 + (len name + 4)) rest.
Proof. intros H. simpl. by rewrite bool_decide_eq_true_2. Qed.

Lemma layout_keep (col : Z) (name : string) (rest : list string) :
  ¬ col + (len name + 7) > 79 →
  layout col (name :: rest)
  = quoted name +:+ ", " +:+ layout (col + (len name + 4)) rest.
Proof. intros H. simpl. by rewrite bool_decide_eq_false_2. Qed.

(** What stands between two names: nothing, or the ellipsis, the line
    break and the indentation of a wrapped line. *)
Definition is_gap (gap : string) : Prop :=
  gap = EmptyString ∨ gap = "..." +:+ newline +:+ "          ".

(** The text of the names: each name in quotes, after its gap, and
    followed by the separator; [closing] comes after the last. *)
Definition separated (gaps names : list string) (closing : string) : string :=
  foldr (λ gn acc, gn.1 +:+ quoted gn.2 +:+ ", " +:+ acc) closing
        (zip gaps names).

Lemma layout_separated (names : list string) (col : Z) (closing : string) :
  ∃ gaps, length gaps = length names
          ∧ Forall is_gap gaps
          ∧ layout col names +:+ closing = separated gaps names closing.
Proof.
  revert col. induction names as [|name rest IH]; intros col.
  - exists []. split; [done|]. split; [constructor|reflexivity].
  - destruct (decide (col + (len name + 7) > 79)) as [Hbreak|Hkeep].
    + destruct (IH (10 + (len name + 4))) as (gaps & Hlen & Hgaps & Heq).
      exists (("..." +:+ newline +:+ "          ") :: gaps).
      split; [simpl; by rewrite Hlen|].
      split; [constructor; [by right|done]|].
      rewrite layout_break by done.
      rewrite !StrFacts.app_assoc, Heq. reflexivity.
    + destruct (IH (col + (len name + 4))) as (gaps & Hlen & Hgaps & Heq).
      exists (EmptyString :: gaps).
      split; [simpl; by rewrite Hlen|].
      split; [constructor; [by left|done]|].
      rewrite layout_keep by done.
      rewrite !StrFacts.app_assoc, Heq. reflexivity.
Qed.

(** C8. For a list with at least one name, the output is the opening,
    then every sorted name in quotes, each followed by the separator
    (a wrapped line only puts the ellipsis and the indentation before
    a name), then the closing brace: the separator follows the last
    name too, and the line ends in [, }]. *)
Theorem trailing_separator (functions : list string) :
  functions ≠ [] →
  (∃ gaps, length gaps = length (sorted functions)
           ∧ Forall is_gap gaps
           ∧ print_for_octave functions
             = "    case {"
               +:+ separated gaps (sorted functions) ("}" +:+ newline))
  ∧ (∃ pre name,
       last (sorted functions) = Some name
       ∧ print_for_octave functions
         = pre +:+ quoted name +:+ ", " +:+ "}" +:+ newline).
Proof.
  intros Hne. rewrite print_for_octave_layout. split.
  - destruct (layout_separated (sorted functions) 10 ("}" +:+ newline))
      as (gaps & Hlen & Hgaps & Heq).
    exists gaps. split; [done|]. split; [done|]. by rewrite Heq.
  - assert (Hs : sorted functions ≠ []).
    { intros Hs. apply Hne, Permutation_nil.
      by rewrite <- Hs, sorted_Permutation. }
    destruct (sorted functions) as [|x l _] using rev_ind; [done|].
    destruct (layout_snoc l x 10) as [pre ->].
    exists ("    case {" +:+ pre), x. split; [apply last_snoc|].
    by rewrite ?StrFacts.app_assoc.
Qed.

Lemma trailing_separator_witness :
  let functions := ["zeta"; "foo"; "myclass.Bar"] in
  (∃ gaps, length gaps = length (sorted functions)
           ∧ Forall is_gap gaps
           ∧ print_for_octave functions
             = "    case {"
               +:+ separated gaps (sorted functions) ("}" +:+ newline))
  ∧ (∃ pre name,
       last (sorted functions) = Some name
       ∧ print_for_octave functions
         = pre +:+ quoted name +:+ ", " +:+ "}" +:+ newline).
Proof.
  apply (trailing_separator ["zeta"; "foo"; "myclass.Bar"]). discriminate.
Defined.


(** * Further properties of the script *)

(** ** The resolver, beyond the claims *)

(** X1. The resolver does not look at the characters it replaces: for a
    name of at least one character, whatever the last [len name]
    characters of the basename are, they give way to the name. *)
Theorem resolver_replaces_unchecked_suffix (p u name : string) :
  name ≠ EmptyString →
  String.length u = String.length name →
  parse_fq_class_name ("ref/" +:+ (p +:+ u) +:+ ".html") name = p +:+ name.
Proof.
  intros Hn Hu. unfold parse_fq_class_name. rewrite slice_basename.
  assert (Hl : len name = len u) by (unfold len; by rewrite Hu).
  rewrite Hl, slice_drop_suffix; [done|].
  intros ->. by destruct name.
Qed.

Lemma resolver_replaces_unchecked_suffix_witness :
  parse_fq_class_name ("ref/" +:+ ("myclass." +:+ "xyz") +:+ ".html") "Bar"
  = "myclass." +:+ "Bar".
Proof.
  apply (resolver_replaces_unchecked_suffix "myclass." "xyz" "Bar");
    [discriminate|reflexivity].
Defined.

(** X2. A name of at least one character that is as long as the
    basename or longer replaces all of it: the resolver returns the
    name alone. *)
Theorem resolver_name_covers_basename (q name : string) :
  name ≠ EmptyString →
  (String.length q ≤ String.length name)%nat →
  parse_fq_class_name ("ref/" +:+ q +:+ ".html") name = name.
Proof.
  intros Hn Hq. unfold parse_fq_class_name. rewrite slice_basename.
  unfold slice, from_option, adjust_index.
  assert (0 < len name) by (destruct name; [done|unfold len; simpl; lia]).
  destruct (Z.ltb_spec (- len name) 0); [|lia].
  rewrite Z.max_l by (unfold len; lia).
  by rewrite StrFacts.substring_0_0.
Qed.

Lemma resolver_name_covers_basename_witness :
  parse_fq_class_name ("ref/" +:+ "a.b" +:+ ".html") "Table" = "Table".
Proof.
  apply (resolver_name_covers_basename "a.b" "Table");
    [discriminate|simpl; lia].
Defined.

Lemma lower_app (s t : string) : lower (s +:+ t) = lower s +:+ lower t.
Proof.
  induction s as [|a s IH]; [done|].
  rewrite StrFacts.app_cons. simpl. by rewrite IH.
Qed.

(** X3. Lower-casing undoes the resolver: for ASCII text, when the
    basename is a lower-case prefix followed by the lower-cased name,
    the resolved name lower-cases back to the basename. *)
Theorem resolver_lower_round_trip (p name : string) :
  name ≠ EmptyString →
  isascii p = true → isascii name = true →
  lower p = p →
  lower (parse_fq_class_name ("ref/" +:+ (p +:+ lower name) +:+ ".html") name)
  = p +:+ lower name.
Proof.
  intros Hn _ _ Hp.
  rewrite parse_fq_class_name_nonempty by done.
  by rewrite lower_app, Hp.
Qed.

Lemma resolver_lower_round_trip_witness :
  lower (parse_fq_class_name
           ("ref/" +:+ ("myclass." +:+ lower "Bar") +:+ ".html") "Bar")
  = "myclass." +:+ lower "Bar".
Proof.
  apply (resolver_lower_round_trip "myclass." "Bar");
    [discriminate|reflexivity..].
Defined.

(** X4. The predicate returns a value exactly on the targets
    [ref/<basename>.html] whose basename has no [/], and the value says
    whether that basename holds a dot. *)
Theorem has_dot_accepts_exactly_shape (target : string) (r : bool) :
  has_dot_in_target_basename target = Ok r
  ↔ ∃ basename, target = "ref/" +:+ basename +:+ ".html"
                ∧ contains "/" basename = false
                ∧ r = contains "." basename.
Proof.
  split.
  - intros H. destruct (has_dot_Ok_shape _ _ H) as (basename & -> & Hb).
    exists basename. split; [done|]. split; [done|].
    rewrite has_dot_on_basename, Hb in H. by injection H.
  - intros (basename & -> & Hb & ->). by rewrite has_dot_on_basename, Hb.
Qed.

(** ** The tree walker, beyond the claims *)

Lemma mapM_Ok_Forall2 {A B} (f : A → result B) (l : list A) (r : list B) :
  mapM f l = Ok r ↔ Forall2 (λ x y, f x = Ok y) l r.
Proof.
  revert r. induction l as [|x l IH]; intros r; simpl.
  - split; [intros [= <-]; constructor|by inversion 1].
  - split.
    + destruct (f x) as [y|] eqn:Hx; simpl; [|done].
      destruct (mapM f l) as [r'|]; simpl; [|done].
      intros [= <-]. constructor; [done|]. by apply IH.
    + inversion 1 as [|? y ? r' Hx Hl]; subst. rewrite Hx. simpl.
      apply IH in Hl. by rewrite Hl.
Qed.

Lemma mapM_no_KeyError {A B} (f : A → result B) (l : list A) :
  (∀ x, f x ≠ Raise KeyError) → mapM f l ≠ Raise KeyError.
Proof.
  intros Hk. induction l as [|x l IH]; simpl; [done|].
  specialize (Hk x). destruct (f x) as [y|[]]; simpl; [|done..].
  by destruct (mapM f l) as [r|[]].
Qed.

Lemma mapM_ext_Forall {A B} (f g : A → result B) (l : list A) :
  Forall (λ x, f x = g x) l → mapM f l = mapM g l.
Proof. induction 1 as [|x l Hx _ IH]; simpl; [done|]. by rewrite Hx, IH. Qed.

(** An entry the walker accepts with the flag set: both attributes,
    and a target of the shape. *)
Definition well_formed_entry (element : Element) : Prop :=
  ∃ name target,
    attrib element !! "name" = Some name
    ∧ attrib element !! "target" = Some target
    ∧ target_shape target.

Lemma resolved_name_Ok_inv (print_fqcn : bool) (element : Element)
    (n : string) :
  resolved_name print_fqcn element = Ok n →
  ∃ name target,
    attrib element !! "name" = Some name
    ∧ attrib element !! "target" = Some target
    ∧ (print_fqcn = true → target_shape target)
    ∧ (n = name ∨ n = parse_fq_class_name target name).
Proof.
  unfold resolved_name.
  destruct (attrib element !! "name") as [name|]; [|done].
  destruct (attrib element !! "target") as [target|]; [|done].
  intros H. exists name, target. split; [done|]. split; [done|].
  destruct print_fqcn.
  - destruct (has_dot_in_target_basename target) as [dotted|] eqn:Hd; [|done].
    split; [intros _; by eapply has_dot_Ok_shape|].
    simpl in H. injection H as <-. destruct dotted; auto.
  - split; [done|]. injection H as <-. auto.
Qed.

Lemma well_formed_resolves (element : Element) :
  well_formed_entry element ↔ ∃ n, resolved_name true element = Ok n.
Proof.
  split.
  - intros (name & target & Hn & Ht & Hs). unfold resolved_name.
    rewrite Hn, Ht. destruct (has_dot_on_shape _ Hs) as [r ->]. simpl. eauto.
  - intros [n (name & target & Hn & Ht & Hs & _)%resolved_name_Ok_inv].
    exists name, target. auto.
Qed.

(** X5. With the flag set the walker returns a list exactly when every
    reference entry of the tree has a [name], a [target], and a target
    of the shape [ref/<basename>.html]. *)
Theorem walker_succeeds_iff_well_formed (tree : Element) :
  (∃ names, deep_search_for_functions tree = Ok names)
  ↔ Forall well_formed_entry (entries tree).
Proof.
  unfold deep_search_for_functions, _PRINT_FQCN.
  rewrite deep_search_entries. split.
  - intros [names Hm%mapM_Ok_Forall2].
    induction Hm as [|e n l r He _ IH]; constructor; [|done].
    apply well_formed_resolves. eauto.
  - induction 1 as [|e l [n He]%well_formed_resolves _ [names IH]].
    + by exists [].
    + exists (n :: names). simpl. by rewrite He, IH.
Qed.

(** X6. The walker never raises [KeyError]: the attributes are read
    only after the assertion has found them. *)
Theorem walker_never_KeyError (print_fqcn : bool) (tree : Element) :
  deep_search_for_functions_with print_fqcn tree ≠ Raise KeyError.
Proof.
  rewrite deep_search_entries.
  apply mapM_no_KeyError, resolved_name_no_KeyError.
Qed.

(** X7. Setting the flag only qualifies names: when the walker returns
    with the flag set, it returns with the flag off too, as many names,
    and every name of the first list ends with the name at the same
    place of the second, which is the [name] attribute as written. *)
Theorem flag_only_qualifies (tree : Element) (names : list string) :
  deep_search_for_functions_with true tree = Ok names →
  ∃ raw, deep_search_for_functions_with false tree = Ok raw
         ∧ Forall2 (λ n r, endswith n r = true) names raw.
Proof.
  rewrite !deep_search_entries. intros Hm%mapM_Ok_Forall2.
  induction Hm as [|e n l r He _ (raw & IH & Hraw)].
  - exists []. split; [done|constructor].
  - apply resolved_name_Ok_inv in He
      as (name & target & Hn & Ht & _ & Hres).
    exists (name :: raw). split.
    + assert (He : resolved_name false e = Ok name).
      { unfold resolved_name. by rewrite Hn, Ht. }
      change (mapM (resolved_name false) (e :: l))
        with (y ← resolved_name false e;
              k ← mapM (resolved_name false) l; Ok (y :: k)).
      by rewrite He, IH.
    + constructor; [|done]. destruct Hres as [-> | ->].
      * apply (endswith_app EmptyString).
      * apply endswith_app.
Qed.

Lemma flag_only_qualifies_witness :
  ∃ raw, deep_search_for_functions_with false scenario_tree = Ok raw
         ∧ Forall2 (λ n r, endswith n r = true) ["foo"; "myclass.Bar"] raw.
Proof. apply (flag_only_qualifies scenario_tree). reflexivity. Defined.

Lemma walk_children_concat (print_fqcn : bool) (cs : list Element)
    (functions : list string) :
  walk_children print_fqcn cs functions
  = below ← mapM (deep_search_for_functions_with print_fqcn) cs;
    Ok (functions ++ concat below).
Proof.
  revert functions. induction cs as [|c cs IH]; intros functions; simpl.
  - by rewrite app_nil_r.
  - destruct (deep_search_for_functions_with print_fqcn c) as [more|];
      simpl; [|done].
    rewrite IH.
    destruct (mapM _ cs) as [below|]; simpl; [|done].
    by rewrite app_assoc.
Qed.

(** X8. The walk of a node is the walk of its parts: what the node
    itself contributes, if it is an entry, followed by the results of
    its children, from first to last; an exception of the node or of a
    child is the exception of the whole. *)
Theorem walker_composes (print_fqcn : bool) (element : Element) :
  deep_search_for_functions_with print_fqcn element
  = own ← (if bool_decide (tag element = ref_tag)
           then visit_ref print_fqcn element []
           else Ok []);
    below ← mapM (deep_search_for_functions_with print_fqcn)
                 (children element);
    Ok (own ++ concat below).
Proof.
  rewrite deep_search_unfold. unfold is_ref.
  destruct (if bool_decide _ then _ else _) as [own|]; simpl; [|done].
  apply walk_children_concat.
Qed.

(** X9. A tree without reference entries is no error: the walker
    returns the empty list and the script prints an empty case. *)
Theorem no_entries_empty_case (tree : Element) :
  entries tree = [] →
  deep_search_for_functions tree = Ok []
  ∧ run tree = Ok ("    case {}" +:+ newline).
Proof.
  intros He.
  assert (Hd : deep_search_for_functions tree = Ok []).
  { unfold deep_search_for_functions. by rewrite deep_search_entries, He. }
  split; [done|]. unfold run. by rewrite Hd.
Qed.

Lemma no_entries_empty_case_witness :
  let tree := mkElement "reflist" ∅ [mkElement "group" ∅ []] in
  deep_search_for_functions tree = Ok []
  ∧ run tree = Ok ("    case {}" +:+ newline).
Proof. apply no_entries_empty_case. reflexivity. Defined.

(** X10. When no target has a dot in its basename the flag makes no
    difference: both settings return the [name] attributes. *)
Theorem flag_irrelevant_without_dots (tree : Element) :
  Forall (λ e, ∃ name basename,
            attrib e !! "name" = Some name
            ∧ attrib e !! "target" = Some ("ref/" +:+ basename +:+ ".html")
            ∧ contains "/" basename = false
            ∧ contains "." basename = false) (entries tree) →
  deep_search_for_functions_with true tree
  = deep_search_for_functions_with false tree.
Proof.
  intros H. rewrite !deep_search_entries. apply mapM_ext_Forall.
  eapply Forall_impl; [exact H|].
  intros e (name & basename & Hn & Ht & Hs & Hd). unfold resolved_name.
  by rewrite Hn, Ht, has_dot_on_basename, Hs, Hd.
Qed.

Lemma flag_irrelevant_without_dots_witness :
  let tree := mkElement "reflist" ∅
                [ref_entry "foo" "ref/foo.html";
                 ref_entry "Bar" "ref/bar.html"] in
  deep_search_for_functions_with true tree
  = deep_search_for_functions_with false tree.
Proof.
  apply flag_irrelevant_without_dots.
  repeat constructor.
  - exists "foo", "foo". repeat split; reflexivity.
  - exists "Bar", "bar". repeat split; reflexivity.
Defined.

(** ** The formatter, beyond the claims *)

(** X11. What is printed depends on the names only, not on the order
    they were collected in. *)
Theorem print_for_octave_order_free (functions functions' : list string) :
  functions ≡ₚ functions' →
  print_for_octave functions = print_for_octave functions'.
Proof.
  intros Hp. rewrite !print_for_octave_layout.
  replace (sorted functions') with (sorted functions); [done|].
  apply sorted_unique; [apply sorted_Sorted|].
  by rewrite sorted_Permutation.
Qed.

Lemma print_for_octave_order_free_witness :
  print_for_octave ["zeta"; "Alpha"; "beta"]
  = print_for_octave ["Alpha"; "zeta"; "beta"].
Proof. apply print_for_octave_order_free. apply perm_swap. Defined.

(** The widest column [text] reaches when written from column [col] *)
Fixpoint widest (col : Z) (text : string) : Z :=
  match text with
  | EmptyString => col
  | String c rest =>
      if bool_decide (c = "010"%char) then Z.max col (widest 0 rest)
      else widest (col + 1) rest
  end.

Lemma widest_line (s t : string) (col : Z) :
  contains "010" s = false →
  widest col (s +:+ t) = widest (col + len s) t.
Proof.
  revert col. induction s as [|c s IH]; intros col; simpl.
  - intros _. rewrite StrFacts.app_nil_l. f_equal. unfold len. simpl. lia.
  - intros [Hc Hs]%orb_false_elim. rewrite ?StrFacts.app_cons. simpl.
    rewrite Hc, (IH _ Hs). f_equal. unfold len. simpl. lia.
Qed.

Lemma widest_newline (t : string) (col : Z) :
  widest col (newline +:+ t) = Z.max col (widest 0 t).
Proof. reflexivity. Qed.

Lemma widest_entry (name t : string) (col : Z) :
  contains "010" name = false →
  widest col (quoted name +:+ ", " +:+ t) = widest (col + (len name + 4)) t.
Proof.
  intros Hn. rewrite <- StrFacts.app_assoc, widest_line.
  - f_equal. unfold quoted. rewrite !StrFacts.len_app.
    change (len dquote) with 1. change (len ", ") with 2. lia.
  - unfold quoted. by rewrite !StrFacts.contains_app, Hn.
Qed.

Lemma layout_width (names : list string) (col : Z) :
  Forall (λ name, contains "010" name = false ∧ len name ≤ 62) names →
  col ≤ 76 →
  widest col (layout col names +:+ "}" +:+ newline) ≤ 79.
Proof.
  intros Hnames. revert col.
  induction Hnames as [|name rest [Hnl Hlen] _ IH]; intros col Hcol.
  - simpl. lia.
  - destruct (decide (col + (len name + 7) > 79)) as [Hbreak|Hkeep].
    + rewrite layout_break by done. rewrite !StrFacts.app_assoc.
      rewrite (widest_line "...") by done. rewrite widest_newline.
      rewrite (widest_line "          ") by done.
      rewrite widest_entry by done.
      change (len "...") with 3. change (len "          ") with 10.
      apply Z.max_lub; [lia|].
      replace (0 + 10 + (len name + 4)) with (10 + (len name + 4)) by lia.
      apply IH. lia.
    + rewrite layout_keep by done.
      rewrite !StrFacts.app_assoc. rewrite widest_entry by done.
      apply IH. lia.
Qed.

(** X12. When no name is longer than 62 characters (and none holds a
    line break), no line of the output is longer than 79 characters,
    the ellipsis and the closing brace included. *)
Theorem output_within_79_columns (functions : list string) :
  Forall (λ name, contains "010" name = false ∧ len name ≤ 62) functions →
  widest 0 (print_for_octave functions) ≤ 79.
Proof.
  intros Hnames. rewrite print_for_octave_layout.
  rewrite (widest_line "    case {") by done.
  change (0 + len "    case {") with 10.
  apply layout_width; [|lia].
  eapply Forall_forall. intros name Hin.
  rewrite Forall_forall in Hnames. apply Hnames.
  by rewrite <- (sorted_Permutation functions).
Qed.

Lemma output_within_79_columns_witness :
  widest 0 (print_for_octave
              ["imadjust"; "imresize"; "bwconncomp"; "regionprops";
               "images.geotrans.Warper"; "imfilter"; "medfilt2"]) ≤ 79.
Proof.
  apply output_within_79_columns.
  repeat constructor; vm_compute; congruence.
Defined.

(** The string literals of a text: what stands between a double quote
    and the next one.  [cur] is the literal being read, if any. *)
Fixpoint quoted_items_go (cur : option string) (text : string)
  : list string :=
  match text with
  | EmptyString => []
  | String c rest =>
      if bool_decide (c = "034"%char) then
        match cur with
        | None => quoted_items_go (Some EmptyString) rest
        | Some item => item :: quoted_items_go None rest
        end
      else
        match cur with
        | None => quoted_items_go None rest
        | Some item =>
            quoted_items_go (Some (item +:+ String c EmptyString)) rest
        end
  end.

Definition quoted_items (text : string) : list string :=
  quoted_items_go None text.

Lemma quoted_items_outside (s t : string) :
  contains "034" s = false →
  quoted_items_go None (s +:+ t) = quoted_items_go None t.
Proof.
  induction s as [|c s IH]; [done|]. simpl.
  intros [Hc Hs]%orb_false_elim. rewrite ?StrFacts.app_cons. simpl.
  by rewrite Hc, IH.
Qed.

Lemma quoted_items_inside (name item t : string) :
  contains "034" name = false →
  quoted_items_go (Some item) (name +:+ dquote +:+ t)
  = (item +:+ name) :: quoted_items_go None t.
Proof.
  revert item. induction name as [|c name IH]; intros item; simpl.
  - intros _. by rewrite StrFacts.app_nil_r.
  - intros [Hc Hs]%orb_false_elim. rewrite ?StrFacts.app_cons. simpl.
    rewrite Hc, (IH _ Hs). by rewrite StrFacts.app_assoc.
Qed.

Lemma quoted_items_entry (name t : string) :
  contains "034" name = false →
  quoted_items_go None (quoted name +:+ ", " +:+ t)
  = name :: quoted_items_go None t.
Proof.
  intros Hn. unfold quoted. rewrite !StrFacts.app_assoc.
  change (quoted_items_go None (dquote +:+ name +:+ dquote +:+ ", " +:+ t))
    with (quoted_items_go (Some EmptyString)
            (name +:+ dquote +:+ ", " +:+ t)).
  rewrite quoted_items_inside by done.
  by rewrite (quoted_items_outside ", ").
Qed.

Lemma quoted_items_layout (names : list string) (col : Z) (t : string) :
  Forall (λ name, contains "034" name = false) names →
  quoted_items_go None (layout col names +:+ t)
  = names ++ quoted_items_go None t.
Proof.
  intros Hnames. revert col.
  induction Hnames as [|name rest Hn _ IH]; intros col; [done|].
  destruct (decide (col + (len name + 7) > 79)) as [Hbreak|Hkeep].
  - rewrite layout_break by done. rewrite !StrFacts.app_assoc.
    rewrite (quoted_items_outside "...") by done.
    rewrite (quoted_items_outside newline) by done.
    rewrite (quoted_items_outside "          ") by done.
    rewrite quoted_items_entry by done. simpl. by rewrite IH.
  - rewrite layout_keep by done. rewrite !StrFacts.app_assoc.
    rewrite quoted_items_entry by done. simpl. by rewrite IH.
Qed.

(** X13. The names can be read back from the output: when no name
    holds a double quote, the string literals of the printed text are
    the sorted names, each once per occurrence in the input. *)
Theorem output_literals_are_sorted_names (functions : list string) :
  Forall (λ name, contains "034" name = false) functions →
  quoted_items (print_for_octave functions) = sorted functions.
Proof.
  intros Hnames. unfold quoted_items. rewrite print_for_octave_layout.
  rewrite (quoted_items_outside "    case {") by done.
  rewrite quoted_items_layout.
  - simpl. by rewrite app_nil_r.
  - eapply Forall_forall. intros name Hin.
    rewrite Forall_forall in Hnames. apply Hnames.
    by rewrite <- (sorted_Permutation functions).
Qed.

Lemma output_literals_are_sorted_names_witness :
  quoted_items (print_for_octave ["zeta"; "myclass.Bar"; "zeta"])
  = sorted ["zeta"; "myclass.Bar"; "zeta"].
Proof.
  apply output_literals_are_sorted_names. repeat constructor.
Defined.

(** The width of the names of a list with their quotes and separators *)
Definition entries_width (names : list string) : Z :=
  foldr (λ name acc, len name + 4 + acc) 0 names.

Lemma entries_width_nonneg (names : list string) : 0 ≤ entries_width names.
Proof.
  induction names as [|name rest IH]; simpl; [done|].
  pose proof (StrFacts.len_nonneg name). lia.
Qed.

Lemma entries_width_Permutation (l l' : list string) :
  l ≡ₚ l' → entries_width l = entries_width l'.
Proof. induction 1; simpl; lia. Qed.

Lemma layout_single_line (names : list string) (col : Z) :
  col + entries_width names + 3 ≤ 79 →
  layout col names
  = foldr (λ name acc, quoted name +:+ ", " +:+ acc) EmptyString names.
Proof.
  revert col. induction names as [|name rest IH]; intros col H; [done|].
  pose proof (entries_width_nonneg rest).
  simpl in H. rewrite layout_keep by lia. simpl. rewrite IH; [done|lia].
Qed.

(** X14. A list that fits is printed on one line: when the names with
    their quotes and separators take at most 66 columns, the output is
    the opening, every sorted name with its separator, and the closing
    brace, with no ellipsis and no line break between them. *)
Theorem short_list_on_one_line (functions : list string) :
  entries_width functions ≤ 66 →
  print_for_octave functions
  = "    case {"
    +:+ foldr (λ name acc, quoted name +:+ ", " +:+ acc) EmptyString
          (sorted functions)
    +:+ "}" +:+ newline.
Proof.
  intros H. rewrite print_for_octave_layout, layout_single_line; [done|].
  rewrite (entries_width_Permutation _ _ (sorted_Permutation functions)).
  lia.
Qed.

Lemma short_list_on_one_line_witness :
  print_for_octave ["imresize"; "imadjust"; "medfilt2"]
  = "    case {"
    +:+ foldr (λ name acc, quoted name +:+ ", " +:+ acc) EmptyString
          (sorted ["imresize"; "imadjust"; "medfilt2"])
    +:+ "}" +:+ newline.
Proof. apply short_list_on_one_line. vm_compute. congruence. Defined.

(** ** The address of the reference list *)

(** The URL [fetch_reference_list] opens for a package name *)
Definition reference_list_url (pkg_name : string) : string :=
  "https://uk.mathworks.com/help/" +:+ pkg_name
  +:+ "/referencelist_function_alpha.xml".

Lemma app_inj_r (s s' t : string) : s +:+ t = s' +:+ t → s = s'.
Proof.
  intros H.
  assert (Hl : String.length s = String.length s').
  { pose proof (f_equal String.length H) as Hl.
    rewrite !StrFacts.length_app in Hl. lia. }
  rewrite <- (StrFacts.substring_app_l s t), H, Hl.
  apply StrFacts.substring_app_l.
Qed.

(** X15. The package name goes into the URL as it is: two package
    names that differ are fetched from two addresses, and the name is
    the part of the URL between the fixed prefix and suffix. *)
Theorem reference_list_url_inj (pkg_name pkg_name' : string) :
  (reference_list_url pkg_name = reference_list_url pkg_name' ↔
   pkg_name = pkg_name')
  ∧ slice (reference_list_url pkg_name) (Some 30) (Some (-33)) = pkg_name.
Proof.
  unfold reference_list_url. split.
  - split; [|by intros ->].
    intros H. apply (inj (String.app _)) in H. by apply app_inj_r in H.
  - unfold slice, from_option, adjust_index.
    change (30 <? 0) with false. change (-33 <? 0) with true. cbv beta iota.
    rewrite !StrFacts.len_app.
    change (len "https://uk.mathworks.com/help/") with 30.
    change (len "/referencelist_function_alpha.xml") with 33.
    pose proof (StrFacts.len_nonneg pkg_name).
    rewrite Z.min_l by lia. rewrite Z.max_r by lia.
    replace (Z.to_nat 30)
      with (String.length "https://uk.mathworks.com/help/" + 0)%nat by done.
    rewrite StrFacts.substring_app_skip.
    replace (Z.to_nat (-33 + (30 + (len pkg_name + 33)) - 30))
      with (String.length pkg_name) by (unfold len in *; lia).
    apply StrFacts.substring_app_l.
Qed.
